(** * The health-tip retrieval tool of the multi-agent RAG notebook

    A shallow embedding of the notebook cell that defines [health_tips] and
    [retrieve_tips], and of the round-robin coordinator the notebook
    configures, together with the properties the design document states
    about them.

    Python values are modelled as follows.
    - [str] is a sequence of Unicode code points, [list N].
    - a [dict] with string keys is a [gmap string str]; [d[k]] raises
      [KeyError] when [k] is absent.
    - the module-level name [health_tips] lives in a record of globals that
      every statement threads; an exception ends the statement sequence. *)

From Stdlib Require Import NArith Ascii String.
From stdpp Require Import base option list strings gmap.

Local Open Scope N_scope.

(** ** Python strings *)

Abbreviation str := (list N).

(** A source literal, character by character (every literal of the cell is
    ASCII). *)
Definition lit (s : string) : str := N_of_ascii <$> list_ascii_of_string s.

(** *** Case conversion

    CPython's [str.lower] and [str.upper] take a fast path on pure-ASCII
    strings and otherwise consult the Unicode character database.  The
    database is not part of the notebook: it is a parameter of the
    development, [case_db], holding the two full-string mappings. *)

Definition is_ascii (c : N) : bool := c <? 128.

Definition ascii_lower (c : N) : N :=
  if (65 <=? c) && (c <=? 90) then c + 32 else c.

Definition ascii_upper (c : N) : N :=
  if (97 <=? c) && (c <=? 122) then c - 32 else c.

Record case_db := CaseDb {
  db_lower : str → str;
  db_upper : str → str
}.

Definition str_lower (U : case_db) (s : str) : str :=
  if forallb is_ascii s then ascii_lower <$> s else db_lower U s.

Definition str_upper (U : case_db) (s : str) : str :=
  if forallb is_ascii s then ascii_upper <$> s else db_upper U s.

(** *** [str.split()] with no argument

    Splits on runs of whitespace and drops empty fields.  The whitespace
    code points are those of [str.isspace]. *)

Definition is_space (c : N) : bool :=
  ((9 <=? c) && (c <=? 13)) || ((28 <=? c) && (c <=? 32))
  || (c =? 133) || (c =? 160) || (c =? 5760)
  || ((8192 <=? c) && (c <=? 8202))
  || (c =? 8232) || (c =? 8233) || (c =? 8239) || (c =? 8287)
  || (c =? 12288).

(** [cur] is the word being read, most recent character first. *)
Fixpoint split_from (cur : str) (s : str) : list str :=
  match s with
  | [] => match cur with [] => [] | _ => [rev cur] end
  | c :: s' =>
      if is_space c
      then match cur with
           | [] => split_from [] s'
           | _ => rev cur :: split_from [] s'
           end
      else split_from (c :: cur) s'
  end.

Definition str_split (s : str) : list str := split_from [] s.

(** *** [w in s] on strings: substring test *)

Fixpoint starts_with (s w : str) {struct w} : bool :=
  match w, s with
  | [], _ => true
  | _ :: _, [] => false
  | a :: w', b :: s' => (a =? b) && starts_with s' w'
  end.

Fixpoint str_contains (s w : str) : bool :=
  starts_with s w ||
  match s with
  | [] => false
  | _ :: s' => str_contains s' w
  end.

(** *** [sep.join(parts)] *)

(** The one-character string of the line feed. *)
Definition newline : str := [10].

Fixpoint str_join (sep : str) (parts : list str) : str :=
  match parts with
  | [] => []
  | [p] => p
  | p :: rest => p ++ sep ++ str_join sep rest
  end.

(** *** [s.split("\n")]: the lines of a string *)

Fixpoint lines_from (cur : str) (s : str) : list str :=
  match s with
  | [] => [rev cur]
  | c :: s' =>
      if c =? 10 then rev cur :: lines_from [] s'
      else lines_from (c :: cur) s'
  end.

Definition str_lines (s : str) : list str := lines_from [] s.

(** ** Statements: globals and exceptions *)

Abbreviation dict := (gmap string str).

Record globals := Globals { g_health_tips : list dict }.

Inductive exn : Type :=
  | KeyError (key : string).

Definition M (A : Type) : Type := globals → (exn + A) * globals.

Definition ret {A} (a : A) : M A := λ g, (inr a, g).

Definition raise {A} (e : exn) : M A := λ g, (inl e, g).

Definition bind {A B} (m : M A) (k : A → M B) : M B :=
  λ g, match m g with
       | (inl e, g') => (inl e, g')
       | (inr a, g') => k a g'
       end.

Notation "x <~ m ;; k" := (bind m (λ x, k))
  (at level 100, m at next level, right associativity, only parsing).

(** Reading the global name [health_tips]. *)
Definition load_health_tips : M (list dict) := λ g, (inr (g_health_tips g), g).

(** [d[k]] *)
Definition getitem (d : dict) (k : string) : M str :=
  match d !! k with
  | Some v => ret v
  | None => raise (KeyError k)
  end.

(** ** The cell: [health_tips] and [retrieve_tips] *)

Definition health_tips : list dict :=
  [ {[ "id"%string := lit "tip1";
       "content"%string := lit "Do a 10-minute HIIT workout to boost your metabolism.";
       "source"%string := lit "Fitness Guru" ]};
    {[ "id"%string := lit "tip2";
       "content"%string := lit "Take a brisk 15-minute walk to clear your mind and improve circulation.";
       "source"%string := lit "Health Coach" ]};
    {[ "id"%string := lit "tip3";
       "content"%string := lit "Stretch for 5 minutes every hour if you're sitting at a desk.";
       "source"%string := lit "Wellness Expert" ]};
    {[ "id"%string := lit "tip4";
       "content"%string := lit "Incorporate strength training twice a week for overall fitness.";
       "source"%string := lit "Personal Trainer" ]};
    {[ "id"%string := lit "tip5";
       "content"%string := lit "Drink water regularly to stay hydrated during workouts.";
       "source"%string := lit "Nutritionist" ]} ].

(** The module's globals once the cell has run. *)
Definition module_globals : globals := Globals health_tips.

Section Retrieve.

Variable U : case_db.

(** [any(word in tip["content"].lower() for word in words)]: the generator
    evaluates [tip["content"].lower()] once per word and [any] stops at the
    first true element. *)
Fixpoint any_word_in (tip : dict) (words : list str) : M bool :=
  match words with
  | [] => ret false
  | word :: rest =>
      content <~ getitem tip "content" ;;
      if str_contains (str_lower U content) word then ret true
      else any_word_in tip rest
  end.

(** [f"Source: {tip['source']} => {tip['content']}"] *)
Definition fmt_tip (tip : dict) : M str :=
  source <~ getitem tip "source" ;;
  content <~ getitem tip "content" ;;
  ret (lit "Source: " ++ source ++ lit " => " ++ content).

(** The [for tip in health_tips:] loop; [relevant] is the list built so far. *)
Fixpoint for_tip (query_lower : str) (tips : list dict) (relevant : list str)
  : M (list str) :=
  match tips with
  | [] => ret relevant
  | tip :: rest =>
      hit <~ any_word_in tip (str_split query_lower) ;;
      if (hit : bool)
      then line <~ fmt_tip tip ;; for_tip query_lower rest (relevant ++ [line])
      else for_tip query_lower rest relevant
  end.

(** The list comprehension of the fallback branch. *)
Fixpoint fmt_all (tips : list dict) : M (list str) :=
  match tips with
  | [] => ret []
  | tip :: rest =>
      line <~ fmt_tip tip ;;
      lines <~ fmt_all rest ;;
      ret (line :: lines)
  end.

Definition retrieve_tips (query : str) : M str :=
  let query_lower := str_lower U query in
  tips <~ load_health_tips ;;
  relevant <~ for_tip query_lower tips [] ;;
  relevant <~ match relevant with
              | [] => tips <~ load_health_tips ;; fmt_all tips
              | _ => ret relevant
              end ;;
  ret (str_join newline relevant).

End Retrieve.

(** ** A fragment of the Unicode case mappings

    The case mappings of the code points up to U+00FF (Basic Latin and
    Latin-1 Supplement), and of the two code points outside that range that
    upper-casing reaches from it.  Other code points are outside the
    fragment and are passed through.  The fragment instantiates [case_db]
    wherever a concrete non-ASCII string is evaluated. *)

Definition latin1_lower_char (c : N) : str :=
  if ((65 <=? c) && (c <=? 90))
     || ((192 <=? c) && (c <=? 222) && negb (c =? 215)) then [c + 32]
  else if c =? 376 then [255]
  else if c =? 924 then [956]
  else [c].

Definition latin1_upper_char (c : N) : str :=
  if ((97 <=? c) && (c <=? 122))
     || ((224 <=? c) && (c <=? 254) && negb (c =? 247)) then [c - 32]
  else if c =? 223 then [83; 83]
  else if c =? 181 then [924]
  else if c =? 255 then [376]
  else [c].

Definition latin1_db : case_db :=
  CaseDb (λ s, s ≫= latin1_lower_char) (λ s, s ≫= latin1_upper_char).

(** ** The design document's data model and algorithm

    A tip is a record of three strings; the tip store is the list of the
    five tips; a tip matches a query when some whitespace-separated word of
    the lower-cased query occurs as a substring of its lower-cased content. *)

Record Tip := MkTip { tip_id : str; tip_content : str; tip_source : str }.

#[global] Instance Tip_eq_dec : EqDecision Tip.
Proof. solve_decision. Defined.

Definition dict_of_tip (t : Tip) : dict :=
  {[ "id"%string := tip_id t;
     "content"%string := tip_content t;
     "source"%string := tip_source t ]}.

Definition tip1 : Tip :=
  MkTip (lit "tip1")
        (lit "Do a 10-minute HIIT workout to boost your metabolism.")
        (lit "Fitness Guru").
Definition tip2 : Tip :=
  MkTip (lit "tip2")
        (lit "Take a brisk 15-minute walk to clear your mind and improve circulation.")
        (lit "Health Coach").
Definition tip3 : Tip :=
  MkTip (lit "tip3")
        (lit "Stretch for 5 minutes every hour if you're sitting at a desk.")
        (lit "Wellness Expert").
Definition tip4 : Tip :=
  MkTip (lit "tip4")
        (lit "Incorporate strength training twice a week for overall fitness.")
        (lit "Personal Trainer").
Definition tip5 : Tip :=
  MkTip (lit "tip5")
        (lit "Drink water regularly to stay hydrated during workouts.")
        (lit "Nutritionist").

Definition tip_store : list Tip := [tip1; tip2; tip3; tip4; tip5].

(** ["Source: X => content"] *)
Definition render (t : Tip) : str :=
  lit "Source: " ++ tip_source t ++ lit " => " ++ tip_content t.

(** [w] occurs in [s] as a substring. *)
Definition substring (w s : str) : Prop := ∃ l r, s = l ++ w ++ r.

Section Algorithm.

Variable U : case_db.

Definition tip_matches (query : str) (t : Tip) : Prop :=
  ∃ word, word ∈ str_split (str_lower U query)
          ∧ substring word (str_lower U (tip_content t)).

Definition tip_matchesb (query : str) (t : Tip) : bool :=
  existsb (str_contains (str_lower U (tip_content t)))
          (str_split (str_lower U query)).

(** The matching tips, in store order. *)
Definition relevant_tips (query : str) : list Tip :=
  filter (λ t, tip_matchesb query t) tip_store.

(** The tips that are shown: the matching ones, or the whole store when
    there is none. *)
Definition selected_tips (query : str) : list Tip :=
  match relevant_tips query with
  | [] => tip_store
  | ts => ts
  end.

Definition spec_retrieve_tips (query : str) : str :=
  str_join newline (render <$> selected_tips query).

End Algorithm.

(** A tip is shown in an output when its rendering is one of the lines. *)
Definition shown_in (out : str) (t : Tip) : Prop := render t ∈ str_lines out.

(** Query and content have a whitespace-separated word in common. *)
Definition shares_word (query : str) (t : Tip) : Prop :=
  ∃ w, w ∈ str_split query ∧ w ∈ str_split (tip_content t).

(** ** The turn coordinator *)

(** The two agents the notebook defines. *)
Inductive role : Type := RetrieverAgent | ResponderAgent.

(** Modelled from the spec: a message of the transcript (design document,
    section 3), a sender and a content; the message type of the chat
    library is not part of the notebook. *)
Record message := Message { msg_sender : role; msg_content : str }.

(** The notebook's configuration of the coordinator: the agents are given as
    [[retriever, responder]], so the retriever holds the first turn. *)
Record group_chat_config := GroupChat {
  termination_condition : option (list message → bool);
  max_turns : nat
}.

Definition group_chat : group_chat_config :=
  {| termination_condition := None; max_turns := 4 |}.

(** Modelled from the spec: the four states of the coordinator (design
    document, section 4.2); the coordinator's code is the chat library's. *)
Inductive phase : Type := Idle | RetrieverTurn | ResponderTurn | Done.

(** Modelled from the spec: the state of the coordinator, whose code is the
    chat library's and not the notebook's.  Besides the state, the turn
    count and the append-only transcript of the design document, the record
    logs every role invocation in order, and the role whose invocation
    failed, if any. *)
Record coordinator := Coordinator {
  phase_of : phase;
  turn_count : nat;
  transcript : list message;
  invocations : list role;
  failure : option role
}.

(** Modelled from the spec: the initial state, Idle with an empty
    transcript; the coordinator's code is the chat library's. *)
Definition initial : coordinator :=
  {| phase_of := Idle; turn_count := 0; transcript := [];
     invocations := []; failure := None |}.

(** Modelled from the spec: whether the termination predicate fires; a
    null predicate never does.  The library code that consults it is not
    part of the notebook. *)
Definition fires (cfg : group_chat_config) (tr : list message) : bool :=
  match termination_condition cfg with
  | Some p => p tr
  | None => false
  end.

(** Modelled from the spec: a run is over when it is done or when a role
    invocation failed; the coordinator's code is the chat library's. *)
Definition terminal (s : coordinator) : Prop :=
  phase_of s = Done ∨ failure s ≠ None.

(** The role that holds turn number [i], counting from zero, the agents
    being listed retriever first. *)
Definition role_at (i : nat) : role :=
  if Nat.even i then RetrieverAgent else ResponderAgent.

Section Coordinator.

(** The model-call collaborator: given the role, the task and the
    conversation so far it returns the content of one message, or fails
    ([None]). *)
Variable model : role → str → list message → option str.
Variable cfg : group_chat_config.
Variable task : str.

(** Modelled from the spec: one invocation of role [r], which the chat
    library performs.  On success the message is appended to the transcript,
    the turn is counted and the coordinator moves to phase [next]; on
    failure the run is aborted. *)
Definition invoke (r : role) (next : nat → list message → phase)
    (s : coordinator) : coordinator :=
  match model r task (transcript s) with
  | None =>
      {| phase_of := phase_of s; turn_count := turn_count s;
         transcript := transcript s;
         invocations := invocations s ++ [r]; failure := Some r |}
  | Some c =>
      let tr := transcript s ++ [Message r c] in
      let n := S (turn_count s) in
      {| phase_of := next n tr; turn_count := n; transcript := tr;
         invocations := invocations s ++ [r]; failure := None |}
  end.

(** Modelled from the spec: one transition of the coordinator.  Idle goes
    to the retriever's turn on run start; the retriever's turn goes to the
    responder's after the retriever emits a message; the responder's turn
    goes back to the retriever's unless the turn count reaches the
    configured maximum or the termination predicate fires, in which case
    the run is done.  A failed invocation aborts the run.  A finished or
    aborted run does not move. *)
Definition step (s : coordinator) : coordinator :=
  match failure s with
  | Some _ => s
  | None =>
      match phase_of s with
      | Idle =>
          {| phase_of := RetrieverTurn; turn_count := turn_count s;
             transcript := transcript s; invocations := invocations s;
             failure := None |}
      | RetrieverTurn => invoke RetrieverAgent (λ _ _, ResponderTurn) s
      | ResponderTurn =>
          invoke ResponderAgent
            (λ n tr, if (max_turns cfg <=? n)%nat || fires cfg tr
                     then Done else RetrieverTurn) s
      | Done => s
      end
  end.

(** Modelled from the spec: the state after [n] transitions of the
    coordinator, whose driver loop is the chat library's. *)
Fixpoint run_steps (n : nat) (s : coordinator) : coordinator :=
  match n with
  | O => s
  | S n' => run_steps n' (step s)
  end.

End Coordinator.

(** A statement that leaves the globals as it found them, whether it
    returns or raises. *)
Definition keeps_globals {A} (m : M A) : Prop := ∀ g, (m g).2 = g.

(** The first [n] turns of the round robin. *)
Definition round_robin (n : nat) : list role := role_at <$> seq 0 n.

(** What every reachable state of the coordinator satisfies, for a
    configuration with turn limit [cfg]: the invocations made so far are
    the first turns of the round robin, at most [max_turns cfg] of them; the
    messages of the transcript come from the roles invoked, in order; and,
    while nothing failed, the turn count is the number of invocations and
    the phase names the role that holds the next turn. *)
Definition coordinator_inv (cfg : group_chat_config) (s : coordinator) : Prop :=
  invocations s = round_robin (length (invocations s))
  ∧ (length (invocations s) ≤ max_turns cfg)%nat
  ∧ match failure s with
    | Some r => invocations s = (msg_sender <$> transcript s) ++ [r]
    | None =>
        invocations s = msg_sender <$> transcript s
        ∧ length (invocations s) = turn_count s
        ∧ match phase_of s with
          | Idle => turn_count s = 0%nat
          | RetrieverTurn =>
              Nat.even (turn_count s) = true
              ∧ (turn_count s < max_turns cfg)%nat
          | ResponderTurn =>
              Nat.even (turn_count s) = false
              ∧ (turn_count s < max_turns cfg)%nat
          | Done => True
          end
    end.

(** ** The rest of the notebook

    *** Tips as the loop reads them

    [retrieve_tips] reads two keys of a tip, ["content"] and ["source"].
    [dict_view] is the tip that a dict holds, an absent key read as the
    empty string; it gives the matching test and the rendering of a dict
    of any store. *)

Definition has_fields (d : dict) : Prop :=
  is_Some (d !! "content"%string) ∧ is_Some (d !! "source"%string).

Definition dict_view (d : dict) : Tip :=
  MkTip (default [] (d !! "id"%string))
        (default [] (d !! "content"%string))
        (default [] (d !! "source"%string)).

(** Two dicts that hold the same content and the same source. *)
Definition same_fields (d d' : dict) : Prop :=
  d !! "content"%string = d' !! "content"%string
  ∧ d !! "source"%string = d' !! "source"%string.

(** The tips of a store that are rendered for a query: the matching ones,
    or all of them when none matches. *)
Definition selected_dicts (U : case_db) (query : str) (store : list dict)
  : list dict :=
  match filter (λ d, tip_matchesb U query (dict_view d)) store with
  | [] => store
  | ds => ds
  end.

(** *** [find_cred_json]

    A [pathlib.Path] is an anchor (drive and root, empty for a relative
    path) and the components below it.  The parent drops the last
    component and the anchor is its own parent; [/] appends the components
    of a relative name, here the single name ["cred.json"]. *)

Record path := Path { path_anchor : str; path_parts : list str }.

#[global] Instance path_eq_dec : EqDecision path.
Proof. solve_decision. Defined.

Definition path_parent (p : path) : path :=
  Path (path_anchor p) (removelast (path_parts p)).

Definition path_join (p : path) (name : str) : path :=
  Path (path_anchor p) (path_parts p ++ [name]).

(** The ancestor [k] levels up. *)
Definition ancestor (k : nat) (p : path) : path := Nat.iter k path_parent p.

Section FindCred.

(** The file system, [Path.exists], and [str] of a path, which depends on
    the platform. *)
Variable fs_exists : path → bool.
Variable path_str : path → str.

(** The [while current != current.parent] loop.  Each round drops one
    component, so the number of components of the start bounds the number
    of rounds. *)
Fixpoint walk_up (rounds : nat) (current : path) : option str :=
  match rounds with
  | O => None
  | S rounds' =>
      if decide (current = path_parent current) then None
      else
        let cred_file := path_join current (lit "cred.json") in
        if fs_exists cred_file then Some (path_str cred_file)
        else walk_up rounds' (path_parent current)
  end.

Definition find_cred_json (start_path : path) : option str :=
  walk_up (length (path_parts start_path)) start_path.


End FindCred.

(** *** [run_query]

    The items of the stream are objects, maps from attribute names to
    values; [hasattr] tests the presence of an attribute and reading an
    absent one raises [AttributeError].  Values are printed through [str],
    and whether an object is true is for its class to say; both are
    parameters.  The output is the list of the texts printed, one per call
    of [print]. *)

Inductive attr_error : Type :=
  | AttributeError (attr : string).

Section RunQuery.

Variable value : Type.
Variable py_str : value → str.
Variable truthy : gmap string value → bool.

Definition getattr (o : gmap string value) (name : string)
  : attr_error + value :=
  match o !! name with
  | Some v => inr v
  | None => inl (AttributeError name)
  end.

(** [f"{message.source}: {message.content}"] *)
Definition fmt_message (message : gmap string value) : attr_error + str :=
  match getattr message "source" with
  | inl e => inl e
  | inr source =>
      match getattr message "content" with
      | inl e => inl e
      | inr content => inr (py_str source ++ lit ": " ++ py_str content)
      end
  end.

(** The [async for message in ...] loop over the items the stream yields;
    [stdout] is what has been printed and [final_result] the variable of
    that name.  An exception leaves the loop with what was printed before
    it. *)
Fixpoint stream_loop (stream : list (gmap string value)) (stdout : list str)
    (final_result : option (gmap string value))
  : list str * (attr_error + option (gmap string value)) :=
  match stream with
  | [] => (stdout, inr final_result)
  | message :: rest =>
      if decide (is_Some (message !! "content"%string))
      then match fmt_message message with
           | inl e => (stdout, inl e)
           | inr line => stream_loop rest (stdout ++ [line]) (Some message)
           end
      else stream_loop rest stdout (Some message)
  end.

(** ["\n✅ Final response:"]; the check mark is U+2705. *)
Definition final_response : str := [10; 9989] ++ lit " Final response:".

(** [final_result.content if final_result else "No response"] *)
Definition final_text (final_result : option (gmap string value))
  : attr_error + str :=
  match final_result with
  | Some message =>
      if truthy message
      then match getattr message "content" with
           | inl e => inl e
           | inr content => inr (py_str content)
           end
      else inr (lit "No response")
  | None => inr (lit "No response")
  end.

(** [run_query], given the items the group chat streams: what it prints and
    the exception it ends with, if any. *)
Definition run_query (stream : list (gmap string value))
  : list str * option attr_error :=
  match stream_loop stream [] None with
  | (stdout, inl e) => (stdout, Some e)
  | (stdout, inr final_result) =>
      match final_text final_result with
      | inl e => (stdout, Some e)
      | inr text => (stdout ++ [final_response ++ lit " " ++ text], None)
      end
  end.

(** The lines of the items that have a content, in stream order; an item
    that has no source has no line. *)
Definition message_lines (stream : list (gmap string value)) : list str :=
  omap (λ message,
          if decide (is_Some (message !! "content"%string))
          then match fmt_message message with
               | inr line => Some line
               | inl _ => None
               end
          else None) stream.

(** Every item that has a content has a source. *)
Definition sourced (stream : list (gmap string value)) : Prop :=
  Forall (λ message, is_Some (message !! "content"%string) →
                     is_Some (message !! "source"%string)) stream.

End RunQuery.

Arguments getattr {value} o name.
Arguments fmt_message {value} py_str message.
Arguments stream_loop {value} py_str stream stdout final_result.
Arguments final_text {value} py_str truthy final_result.
Arguments run_query {value} py_str truthy stream.
Arguments message_lines {value} py_str stream.
Arguments sourced {value} stream.

(** * Properties *)

(** ** The cell at work *)

Example split_drops_blank_runs :
  str_split (lit "  HIIT   workout ") = [lit "HIIT"; lit "workout"].
Proof. reflexivity. Qed.

Example water_selects_tip5 (U : case_db) :
  (retrieve_tips U (lit "WATER") module_globals).1
  = inr (lit "Source: Nutritionist => Drink water regularly to stay hydrated during workouts.").
Proof. vm_compute. reflexivity. Qed.

(** The query of the notebook's [run_query]: its word ["i"] is a substring
    of every content, so all five tips are returned. *)
Example user_query_selects_all (U : case_db) :
  (retrieve_tips U
     (lit "I'm very busy but want to stay fit. What quick exercises can I do?")
     module_globals).1
  = inr (str_join newline (render <$> tip_store)).
Proof. vm_compute. reflexivity. Qed.

(** A tip without a ["content"] key makes the loop raise as soon as the
    query has a word; with no word the loop never reads the tip and it is
    the fallback that raises, on ["source"]. *)
Example missing_content_raises (U : case_db) :
  (retrieve_tips U (lit "walk") (Globals [∅])).1 = inl (KeyError "content").
Proof. reflexivity. Qed.

Example missing_source_raises (U : case_db) :
  (retrieve_tips U [] (Globals [∅])).1 = inl (KeyError "source").
Proof. reflexivity. Qed.

(** ** Strings *)

Lemma starts_with_spec (s w : str) :
  starts_with s w = true ↔ ∃ r, s = w ++ r.
Proof.
  revert s. induction w as [|a w IH]; intros s; simpl.
  - split; [intros _; by exists s | done].
  - destruct s as [|b s].
    + split; [done | intros [r Hr]; discriminate].
    + rewrite andb_true_iff, N.eqb_eq, IH. split.
      * intros [-> [r ->]]. by exists r.
      * intros [r Hr]. injection Hr as -> ->. eauto.
Qed.

Lemma str_contains_spec (s w : str) :
  str_contains s w = true ↔ substring w s.
Proof.
  unfold substring. induction s as [|b s IH].
  - simpl. rewrite orb_false_r, starts_with_spec. split.
    + intros [r ->]. by exists [], r.
    + intros [l [r Hs]]. symmetry in Hs.
      apply app_eq_nil in Hs as [-> Hs]. apply app_eq_nil in Hs as [-> ->].
      by exists [].
  - cbn [str_contains]. rewrite orb_true_iff, starts_with_spec, IH. split.
    + intros [[r ->] | [l [r ->]]].
      * by exists [], r.
      * by exists (b :: l), r.
    + intros [[|c l] [r Hs]].
      * left. by exists r.
      * right. injection Hs as -> ->. by exists l, r.
Qed.

Lemma lines_from_no_newline (cur s rest : str) :
  10 ∉ s → lines_from cur (s ++ rest) = lines_from (rev s ++ cur) rest.
Proof.
  revert cur. induction s as [|c s IH]; intros cur Hs; [done |].
  apply not_elem_of_cons in Hs as [Hc Hs]. simpl.
  destruct (N.eqb_spec c 10) as [-> | _]; [congruence |].
  rewrite IH by done. by rewrite <- app_assoc.
Qed.

Lemma str_lines_join (parts : list str) :
  parts ≠ [] → Forall (λ p, 10 ∉ p) parts →
  str_lines (str_join newline parts) = parts.
Proof.
  unfold str_lines. induction parts as [|p parts IH]; [done |].
  intros _ Hall. apply Forall_cons in Hall as [Hp Hall].
  destruct parts as [|p' parts].
  - simpl. rewrite <- (app_nil_r p) at 1. rewrite lines_from_no_newline by done.
    simpl. by rewrite app_nil_r, rev_involutive.
  - change (str_join newline (p :: p' :: parts))
      with (p ++ 10 :: str_join newline (p' :: parts)).
    rewrite lines_from_no_newline by done. cbn [lines_from N.eqb Pos.eqb].
    rewrite app_nil_r, rev_involutive. f_equal. by apply IH.
Qed.

Lemma str_join_nonempty (sep p : str) (parts : list str) :
  p ≠ [] → str_join sep (p :: parts) ≠ [].
Proof. destruct p, parts; simpl; congruence. Qed.

(** The ASCII fast path keeps a string ASCII. *)
Lemma ascii_lower_is_ascii (s : str) :
  forallb is_ascii s = true → forallb is_ascii (ascii_lower <$> s) = true.
Proof.
  induction s as [|c s IH]; [done |]. simpl.
  rewrite !andb_true_iff. intros [Hc Hs]. split; [| by apply IH].
  unfold is_ascii, ascii_lower in *. apply N.ltb_lt in Hc.
  destruct ((65 <=? c) && (c <=? 90)) eqn:E; apply N.ltb_lt; [| lia].
  apply andb_true_iff in E as [_ E]. apply N.leb_le in E. lia.
Qed.

(** ** Statements that only read *)

Lemma keeps_ret {A} (a : A) : keeps_globals (ret a).
Proof. done. Qed.

Lemma keeps_raise {A} (e : exn) : keeps_globals (@raise A e).
Proof. done. Qed.

Lemma keeps_bind {A B} (m : M A) (k : A → M B) :
  keeps_globals m → (∀ a, keeps_globals (k a)) → keeps_globals (bind m k).
Proof.
  intros Hm Hk g. unfold bind. specialize (Hm g).
  destruct (m g) as [[e | a] g']; simpl in *; subst; [done | apply Hk].
Qed.

Lemma keeps_load : keeps_globals load_health_tips.
Proof. done. Qed.

Lemma keeps_getitem (d : dict) (k : string) : keeps_globals (getitem d k).
Proof. unfold getitem. destruct (d !! k); [apply keeps_ret | apply keeps_raise]. Qed.

Create HintDb keeps discriminated.
#[local] Hint Resolve keeps_ret keeps_raise keeps_load keeps_getitem : keeps.

Ltac keeps_step :=
  repeat first
    [ progress eauto with keeps
    | apply keeps_bind; [| intros ?]
    | match goal with
      | |- keeps_globals (if ?b then _ else _) => destruct b
      | |- keeps_globals (match ?l with [] => _ | _ :: _ => _ end) => destruct l
      end ].

Section ReadOnly.

Variable U : case_db.

Lemma keeps_any_word_in (tip : dict) (words : list str) :
  keeps_globals (any_word_in U tip words).
Proof. induction words as [|w words IH]; simpl; keeps_step. Qed.

Lemma keeps_fmt_tip (tip : dict) : keeps_globals (fmt_tip tip).
Proof. unfold fmt_tip. keeps_step. Qed.

Lemma keeps_for_tip (ql : str) (tips : list dict) (relevant : list str) :
  keeps_globals (for_tip U ql tips relevant).
Proof.
  revert relevant. induction tips as [|tip tips IH]; intros relevant; simpl.
  - keeps_step.
  - apply keeps_bind; [apply keeps_any_word_in |]. intros [|]; [| apply IH].
    apply keeps_bind; [apply keeps_fmt_tip |]. intros line. apply IH.
Qed.

Lemma keeps_fmt_all (tips : list dict) : keeps_globals (fmt_all tips).
Proof.
  induction tips as [|tip tips IH]; simpl; [keeps_step |].
  apply keeps_bind; [apply keeps_fmt_tip |]. intros line.
  apply keeps_bind; [apply IH |]. intros lines. keeps_step.
Qed.

Lemma keeps_retrieve_tips (query : str) : keeps_globals (retrieve_tips U query).
Proof.
  unfold retrieve_tips.
  apply keeps_bind; [apply keeps_load |]. intros tips.
  apply keeps_bind; [apply keeps_for_tip |]. intros relevant.
  apply keeps_bind; [| intros ?; keeps_step].
  destruct relevant; [| keeps_step].
  apply keeps_bind; [apply keeps_load |]. intros ?. apply keeps_fmt_all.
Qed.

End ReadOnly.

(** ** Running the cell on the tip store *)

Lemma health_tips_store : health_tips = dict_of_tip <$> tip_store.
Proof. reflexivity. Qed.

Lemma getitem_content (t : Tip) (g : globals) :
  getitem (dict_of_tip t) "content" g = (inr (tip_content t), g).
Proof. reflexivity. Qed.

Lemma getitem_source (t : Tip) (g : globals) :
  getitem (dict_of_tip t) "source" g = (inr (tip_source t), g).
Proof. reflexivity. Qed.

Lemma fmap_render_nil (ts : list Tip) : render <$> ts = [] ↔ ts = [].
Proof. by destruct ts. Qed.

Section Run.

Variable U : case_db.

Lemma any_word_in_run (t : Tip) (words : list str) (g : globals) :
  any_word_in U (dict_of_tip t) words g
  = (inr (existsb (str_contains (str_lower U (tip_content t))) words), g).
Proof.
  induction words as [|w words IH]; [done |].
  cbn [any_word_in existsb]. unfold bind. rewrite getitem_content.
  destruct (str_contains _ w); [done | apply IH].
Qed.

Lemma fmt_tip_run (t : Tip) (g : globals) :
  fmt_tip (dict_of_tip t) g = (inr (render t), g).
Proof. reflexivity. Qed.

Lemma for_tip_run (query : str) (ts : list Tip) (relevant : list str)
    (g : globals) :
  for_tip U (str_lower U query) (dict_of_tip <$> ts) relevant g
  = (inr (relevant ++ (render <$> filter (λ t, tip_matchesb U query t) ts)), g).
Proof.
  revert relevant. induction ts as [|t ts IH]; intros relevant.
  - simpl. by rewrite app_nil_r.
  - rewrite fmap_cons. cbn [for_tip]. unfold bind at 1.
    rewrite any_word_in_run, filter_cons. fold (tip_matchesb U query t).
    destruct (tip_matchesb U query t) eqn:Hm.
    + rewrite decide_True by done. unfold bind. rewrite fmt_tip_run, IH.
      by rewrite <- app_assoc, fmap_cons.
    + rewrite decide_False by (by apply Is_true_false). apply IH.
Qed.

Lemma fmt_all_run (ts : list Tip) (g : globals) :
  fmt_all (dict_of_tip <$> ts) g = (inr (render <$> ts), g).
Proof.
  induction ts as [|t ts IH]; [done |].
  rewrite !fmap_cons. cbn [fmt_all]. unfold bind. by rewrite fmt_tip_run, IH.
Qed.

(** On the module's globals the cell returns what the design document's
    algorithm computes, and raises nothing. *)
Lemma retrieve_tips_run (query : str) :
  retrieve_tips U query module_globals
  = (inr (spec_retrieve_tips U query), module_globals).
Proof.
  unfold retrieve_tips, spec_retrieve_tips, selected_tips, relevant_tips.
  unfold bind at 1. cbn [load_health_tips module_globals g_health_tips].
  rewrite health_tips_store. unfold bind at 1. rewrite for_tip_run.
  rewrite app_nil_l.
  destruct (filter _ tip_store) as [|t ts] eqn:Hf.
  - cbn [fmap list_fmap]. unfold bind.
    cbn [load_health_tips module_globals g_health_tips].
    rewrite health_tips_store. by rewrite fmt_all_run.
  - by rewrite fmap_cons.
Qed.

End Run.

(** ** Facts about the tip store *)

Lemma tip_store_NoDup : NoDup tip_store.
Proof. compute_done. Qed.

Lemma render_no_newline (t : Tip) : t ∈ tip_store → 10 ∉ render t.
Proof.
  assert (H : Forall (λ t, 10 ∉ render t) tip_store) by compute_done.
  rewrite Forall_forall in H. apply H.
Qed.

Lemma render_inj_store (t t' : Tip) :
  t ∈ tip_store → t' ∈ tip_store → render t = render t' → t = t'.
Proof.
  unfold tip_store. rewrite !elem_of_cons, !elem_of_nil. intros Ht Ht' Heq.
  apply (f_equal (λ l : str, l !! 8%nat)) in Heq.
  destruct Ht as [-> | [-> | [-> | [-> | [-> | []]]]]];
    destruct Ht' as [-> | [-> | [-> | [-> | [-> | []]]]]];
    first [reflexivity | vm_compute in Heq; discriminate].
Qed.

Lemma render_nonempty (t : Tip) : render t ≠ [].
Proof. unfold render. simpl. discriminate. Qed.

Lemma tip_matchesb_spec (U : case_db) (query : str) (t : Tip) :
  tip_matchesb U query t = true ↔ tip_matches U query t.
Proof.
  unfold tip_matchesb, tip_matches. rewrite existsb_exists.
  split; intros [w [Hw Hs]]; exists w.
  - by rewrite list_elem_of_In, <- str_contains_spec.
  - by rewrite <- list_elem_of_In, str_contains_spec.
Qed.

Section Selected.

Variable U : case_db.

Lemma elem_of_relevant_tips (query : str) (t : Tip) :
  t ∈ relevant_tips U query ↔ t ∈ tip_store ∧ tip_matches U query t.
Proof.
  unfold relevant_tips. rewrite list_elem_of_filter, Is_true_true.
  rewrite tip_matchesb_spec. tauto.
Qed.

Lemma relevant_tips_sublist (query : str) :
  relevant_tips U query `sublist_of` tip_store.
Proof. apply sublist_filter. Qed.

Lemma selected_tips_sublist (query : str) :
  selected_tips U query `sublist_of` tip_store.
Proof.
  unfold selected_tips. pose proof (relevant_tips_sublist query) as H.
  by destruct (relevant_tips U query).
Qed.

Lemma selected_tips_nonempty (query : str) : selected_tips U query ≠ [].
Proof. unfold selected_tips. by destruct (relevant_tips U query). Qed.

Lemma selected_tips_store (query : str) (t : Tip) :
  t ∈ selected_tips U query → t ∈ tip_store.
Proof.
  intros Ht. eapply elem_of_sublist; [done | apply selected_tips_sublist].
Qed.

(** The lines of the output are the renderings of the selected tips. *)
Lemma str_lines_spec_retrieve_tips (query : str) :
  str_lines (spec_retrieve_tips U query) = render <$> selected_tips U query.
Proof.
  unfold spec_retrieve_tips. apply str_lines_join.
  - rewrite fmap_render_nil. apply selected_tips_nonempty.
  - apply Forall_fmap, Forall_forall. intros t Ht.
    by apply render_no_newline, selected_tips_store with query.
Qed.

Lemma shown_in_spec_retrieve_tips (query : str) (t : Tip) :
  t ∈ tip_store →
  shown_in (spec_retrieve_tips U query) t ↔ t ∈ selected_tips U query.
Proof.
  intros Ht. unfold shown_in.
  rewrite str_lines_spec_retrieve_tips, list_elem_of_fmap. split.
  - intros [t' [Heq Ht']]. apply render_inj_store in Heq as ->;
      eauto using selected_tips_store.
  - intros Hin. by exists t.
Qed.

End Selected.

(** ** The retrieval function *)

(** C1: for every query, [retrieve_tips] returns what the design document's
    algorithm describes.  With [matching] the tips of the store, in store
    order, of which some whitespace-separated word of the lower-cased query
    is a substring of the lower-cased content, the result is the
    newline-join of the renderings ["Source: " ++ source ++ " => " ++
    content] of [matching], or of the whole store when [matching] is
    empty. *)
Theorem retrieve_tips_algorithm (U : case_db) (query : str) :
  ∃ matching : list Tip,
    matching `sublist_of` tip_store
    ∧ (∀ t, t ∈ matching ↔ t ∈ tip_store ∧
         ∃ word, word ∈ str_split (str_lower U query)
                 ∧ substring word (str_lower U (tip_content t)))
    ∧ (∀ t, render t
            = lit "Source: " ++ tip_source t ++ lit " => " ++ tip_content t)
    ∧ retrieve_tips U query module_globals
      = (inr (str_join newline
                (render <$> match matching with
                            | [] => tip_store
                            | _ => matching
                            end)),
         module_globals).
Proof.
  exists (relevant_tips U query). split; [apply relevant_tips_sublist |].
  split; [intros t; apply elem_of_relevant_tips |].
  split; [done |]. rewrite retrieve_tips_run.
  unfold spec_retrieve_tips, selected_tips. by destruct (relevant_tips U query).
Qed.

(** C2: for every query, the empty one included, the output of
    [retrieve_tips] is a non-empty string and at least one of its lines is the
    rendering of a tip of the store. *)
Theorem retrieve_tips_nonempty (U : case_db) (query : str) :
  ∃ out, retrieve_tips U query module_globals = (inr out, module_globals)
         ∧ out ≠ []
         ∧ ∃ t, t ∈ tip_store ∧ shown_in out t.
Proof.
  exists (spec_retrieve_tips U query). split; [apply retrieve_tips_run |].
  pose proof (selected_tips_nonempty U query) as Hne.
  destruct (selected_tips U query) as [|t ts] eqn:Hsel; [done |].
  assert (Hin : t ∈ selected_tips U query) by (rewrite Hsel; left).
  split.
  - unfold spec_retrieve_tips. rewrite Hsel, fmap_cons.
    apply str_join_nonempty, render_nonempty.
  - exists t. split; [by apply (selected_tips_store U query) |].
    apply shown_in_spec_retrieve_tips; [| done].
    by apply (selected_tips_store U query).
Qed.

(** C3: when no whitespace-separated word of the lower-cased query is a
    substring of the lower-cased content of any tip, [retrieve_tips]
    returns the newline-join of the renderings of all five tips in store
    order; the empty query is such a query. *)
Theorem retrieve_tips_fallback (U : case_db) :
  (∀ query,
     (∀ word t, word ∈ str_split (str_lower U query) → t ∈ tip_store →
                ¬ substring word (str_lower U (tip_content t))) →
     retrieve_tips U query module_globals
     = (inr (str_join newline (render <$> [tip1; tip2; tip3; tip4; tip5])),
        module_globals))
  ∧ retrieve_tips U [] module_globals
    = (inr (str_join newline (render <$> [tip1; tip2; tip3; tip4; tip5])),
       module_globals).
Proof.
  assert (Hgen : ∀ query,
    (∀ word t, word ∈ str_split (str_lower U query) → t ∈ tip_store →
               ¬ substring word (str_lower U (tip_content t))) →
    retrieve_tips U query module_globals
    = (inr (str_join newline (render <$> tip_store)), module_globals)).
  { intros query Hno. rewrite retrieve_tips_run.
    unfold spec_retrieve_tips, selected_tips.
    destruct (relevant_tips U query) as [|t ts] eqn:Hrel; [done |].
    assert (Ht : t ∈ relevant_tips U query) by (rewrite Hrel; left).
    apply elem_of_relevant_tips in Ht as [Ht [w [Hw Hs]]].
    by destruct (Hno w t). }
  split; [exact Hgen |]. apply Hgen. intros word t Hw. by apply elem_of_nil in Hw.
Qed.

Lemma retrieve_tips_fallback_witness :
  retrieve_tips latin1_db (lit "zzz qqq") module_globals
  = (inr (str_join newline (render <$> [tip1; tip2; tip3; tip4; tip5])),
     module_globals).
Proof.
  apply (proj1 (retrieve_tips_fallback latin1_db)).
  intros word t Hw Ht. rewrite <- str_contains_spec.
  change (str_split (str_lower latin1_db (lit "zzz qqq")))
    with [lit "zzz"; lit "qqq"] in Hw.
  unfold tip_store in Ht. rewrite !elem_of_cons, elem_of_nil in Hw.
  rewrite !elem_of_cons, elem_of_nil in Ht.
  destruct Hw as [-> | [-> | []]];
    destruct Ht as [-> | [-> | [-> | [-> | [-> | []]]]]];
    vm_compute; discriminate.
Defined.

(** C5: for the query ["HIIT workout"], a line of the output is the
    rendering of the tip with id ["tip1"], whose source is ["Fitness Guru"]
    and whose content is ["Do a 10-minute HIIT workout to boost your
    metabolism."]. *)
Theorem retrieve_tips_hiit_workout (U : case_db) :
  ∃ out,
    retrieve_tips U (lit "HIIT workout") module_globals
    = (inr out, module_globals)
    ∧ shown_in out tip1
    ∧ substring (render tip1) out
    ∧ tip1 = MkTip (lit "tip1")
               (lit "Do a 10-minute HIIT workout to boost your metabolism.")
               (lit "Fitness Guru").
Proof.
  exists (spec_retrieve_tips U (lit "HIIT workout")).
  split; [apply retrieve_tips_run |].
  assert (Hsel : selected_tips U (lit "HIIT workout") = [tip1; tip5])
    by (vm_compute; reflexivity).
  split; [| split; [| done]].
  - apply shown_in_spec_retrieve_tips; [compute_done |]. rewrite Hsel. left.
  - unfold spec_retrieve_tips. rewrite Hsel.
    by exists [], (newline ++ render tip5).
Qed.

(** C6: [retrieve_tips] is total and deterministic: for every query the
    call on the module's globals returns a string without raising, and a
    second call, made in the globals the first one leaves, returns the same
    string. *)
Theorem retrieve_tips_deterministic_total (U : case_db) (query : str) :
  ∃ out,
    let '(r1, g1) := retrieve_tips U query module_globals in
    let '(r2, g2) := retrieve_tips U query g1 in
    r1 = inr out ∧ r2 = inr out.
Proof.
  exists (spec_retrieve_tips U query). by rewrite !retrieve_tips_run.
Qed.

(** C7: a call of [retrieve_tips] leaves the tip store unchanged, for every
    query and whatever the store holds: the list [health_tips] after the
    call is the list before it, so every field of every tip is the same. *)
Theorem retrieve_tips_keeps_health_tips (U : case_db) (query : str)
    (g : globals) :
  g_health_tips (retrieve_tips U query g).2 = g_health_tips g
  ∧ (retrieve_tips U query module_globals).2 = Globals health_tips.
Proof. by rewrite !keeps_retrieve_tips. Qed.

(** C10: for every query, the lines of the output are the renderings of
    tips of the store, each tip at most once and in store order, and there
    are between one and five lines. *)
Theorem retrieve_tips_lines (U : case_db) (query : str) :
  ∃ out shown,
    retrieve_tips U query module_globals = (inr out, module_globals)
    ∧ str_lines out = render <$> shown
    ∧ shown `sublist_of` tip_store
    ∧ NoDup shown
    ∧ NoDup (str_lines out)
    ∧ (1 ≤ length (str_lines out) ≤ 5)%nat.
Proof.
  exists (spec_retrieve_tips U query), (selected_tips U query).
  pose proof (selected_tips_sublist U query) as Hsub.
  assert (Hnd : NoDup (selected_tips U query))
    by exact (sublist_NoDup _ _ tip_store_NoDup Hsub).
  rewrite str_lines_spec_retrieve_tips, length_fmap.
  split; [apply retrieve_tips_run |]. split; [done |]. split; [done |].
  split; [done |]. split.
  - apply NoDup_fmap_2_strong; [| done]. intros t t' Ht Ht'.
    apply render_inj_store; by apply (selected_tips_store U query).
  - apply sublist_length in Hsub. change (length tip_store) with 5%nat in Hsub.
    pose proof (selected_tips_nonempty U query).
    destruct (selected_tips U query); simpl in *; [done | lia].
Qed.

(** *** Matching is by substring, not by whole word *)

(** C4 as stated fails: for the query ["work"] the first tip matches and is
    shown (["work"] is a substring of ["workout"]), yet the query and the
    tip's content have no whitespace-separated word in common. *)
Lemma work_shown_without_shared_word :
  ∃ out,
    retrieve_tips latin1_db (lit "work") module_globals
    = (inr out, module_globals)
    ∧ tip_matches latin1_db (lit "work") tip1
    ∧ shown_in out tip1
    ∧ ¬ shares_word (lit "work") tip1.
Proof.
  exists (spec_retrieve_tips latin1_db (lit "work")).
  assert (Hm : tip_matches latin1_db (lit "work") tip1)
    by (apply tip_matchesb_spec; vm_compute; reflexivity).
  split; [apply retrieve_tips_run |]. split; [done |]. split.
  - apply shown_in_spec_retrieve_tips; [compute_done |].
    assert (Hsel : selected_tips latin1_db (lit "work") = [tip1; tip5])
      by (vm_compute; reflexivity).
    rewrite Hsel. left.
  - intros [w [Hw Hc]].
    change (str_split (lit "work")) with [lit "work"] in Hw.
    apply list_elem_of_singleton in Hw as ->.
    revert Hc. compute_done.
Qed.

(** C4, amended: when at least one tip matches, the tips shown in the output
    are exactly the tips of the store of which the lower-cased content has
    some whitespace-separated word of the lower-cased query as a
    substring. *)
Theorem retrieve_tips_shows_matching (U : case_db) (query : str) :
  (∃ t, t ∈ tip_store ∧ tip_matches U query t) →
  ∃ out,
    retrieve_tips U query module_globals = (inr out, module_globals)
    ∧ ∀ t, t ∈ tip_store → (shown_in out t ↔ tip_matches U query t).
Proof.
  intros [t0 Ht0]. exists (spec_retrieve_tips U query).
  split; [apply retrieve_tips_run |]. intros t Ht.
  rewrite shown_in_spec_retrieve_tips by done.
  apply elem_of_relevant_tips in Ht0. unfold selected_tips.
  destruct (relevant_tips U query) as [|t1 ts] eqn:Hrel.
  - by apply elem_of_nil in Ht0.
  - rewrite <- Hrel, elem_of_relevant_tips. tauto.
Qed.

Lemma retrieve_tips_shows_matching_witness :
  ∃ out,
    retrieve_tips latin1_db (lit "work") module_globals
    = (inr out, module_globals)
    ∧ ∀ t, t ∈ tip_store →
           (shown_in out t ↔ tip_matches latin1_db (lit "work") t).
Proof.
  apply (retrieve_tips_shows_matching latin1_db (lit "work")).
  exists tip1. split; [compute_done |].
  apply tip_matchesb_spec. vm_compute. reflexivity.
Defined.

(** *** Case of the query *)

Lemma ascii_upper_is_ascii (s : str) :
  forallb is_ascii s = true → forallb is_ascii (ascii_upper <$> s) = true.
Proof.
  induction s as [|c s IH]; [done |]. simpl.
  rewrite !andb_true_iff. intros [Hc Hs]. split; [| by apply IH].
  unfold is_ascii, ascii_upper in *. apply N.ltb_lt in Hc.
  destruct ((97 <=? c) && (c <=? 122)); apply N.ltb_lt; lia.
Qed.

Lemma ascii_lower_idemp (c : N) : ascii_lower (ascii_lower c) = ascii_lower c.
Proof.
  unfold ascii_lower.
  destruct ((65 <=? c) && (c <=? 90)) eqn:E; [| by rewrite E].
  apply andb_true_iff in E as [E1 E2]. apply N.leb_le in E1, E2.
  replace ((65 <=? c + 32) && (c + 32 <=? 90)) with false; [done |].
  symmetry. apply andb_false_iff. right. apply N.leb_gt. lia.
Qed.

Lemma ascii_lower_upper (c : N) : ascii_lower (ascii_upper c) = ascii_lower c.
Proof.
  unfold ascii_lower, ascii_upper.
  destruct ((97 <=? c) && (c <=? 122)) eqn:E; [| done].
  apply andb_true_iff in E as [E1 E2]. apply N.leb_le in E1, E2.
  replace ((65 <=? c - 32) && (c - 32 <=? 90)) with true.
  - replace ((65 <=? c) && (c <=? 90)) with false; [lia |].
    symmetry. apply andb_false_iff. right. apply N.leb_gt. lia.
  - symmetry. apply andb_true_iff. split; apply N.leb_le; lia.
Qed.

Lemma str_lower_ascii (U : case_db) (s : str) :
  forallb is_ascii s = true →
  str_lower U (str_lower U s) = str_lower U s
  ∧ str_lower U (str_upper U s) = str_lower U s.
Proof.
  intros Hs. unfold str_lower, str_upper. rewrite Hs.
  rewrite ascii_lower_is_ascii, ascii_upper_is_ascii by done.
  rewrite <- !list_fmap_compose. split; apply list_fmap_ext; intros _ c _; simpl.
  - apply ascii_lower_idemp.
  - apply ascii_lower_upper.
Qed.

(** C9 as stated fails on upper-casing: the upper case of U+00DF is
    ["SS"], which lower-cases to ["ss"], a substring of ["fitness"]; so the
    query U+00DF falls back to the whole store while its upper case selects
    the fourth tip alone. *)
Lemma eszett_upper_changes_result :
  str_lower latin1_db [223] = [223]
  ∧ str_upper latin1_db [223] = lit "SS"
  ∧ retrieve_tips latin1_db [223] module_globals
    = (inr (str_join newline (render <$> tip_store)), module_globals)
  ∧ retrieve_tips latin1_db (str_upper latin1_db [223]) module_globals
    = (inr (render tip4), module_globals)
  ∧ str_join newline (render <$> tip_store) ≠ render tip4.
Proof.
  split; [done |]. split; [done |].
  split; [by rewrite retrieve_tips_run |].
  split; [by rewrite retrieve_tips_run |].
  intros Heq. apply (f_equal (λ l : str, l !! 8%nat)) in Heq.
  vm_compute in Heq. discriminate.
Qed.

(** C9, amended: [retrieve_tips] depends on its query through the
    lower-cased query only.  So a query and its lower case give the same
    result whenever lower-casing the lower case changes nothing, and a
    query and its upper case give the same result whenever the upper case
    lower-cases to the lower case of the query.  Both hold of every ASCII
    query. *)
Theorem retrieve_tips_case_insensitive (U : case_db) (query : str) :
  (str_lower U (str_lower U query) = str_lower U query →
   ∀ g, retrieve_tips U query g = retrieve_tips U (str_lower U query) g)
  ∧ (str_lower U (str_upper U query) = str_lower U query →
     ∀ g, retrieve_tips U query g = retrieve_tips U (str_upper U query) g)
  ∧ (forallb is_ascii query = true →
     ∀ g, retrieve_tips U query g = retrieve_tips U (str_lower U query) g
          ∧ retrieve_tips U query g = retrieve_tips U (str_upper U query) g).
Proof.
  assert (Hdep : ∀ q q', str_lower U q' = str_lower U q →
                         ∀ g, retrieve_tips U q g = retrieve_tips U q' g).
  { intros q q' Heq g. unfold retrieve_tips. by rewrite Heq. }
  split; [apply Hdep |]. split; [apply Hdep |].
  intros Hascii g. destruct (str_lower_ascii U query Hascii) as [H1 H2].
  split; by apply Hdep.
Qed.

Lemma retrieve_tips_case_insensitive_witness :
  (∀ g, retrieve_tips latin1_db [233] g
        = retrieve_tips latin1_db (str_lower latin1_db [233]) g)
  ∧ (∀ g, retrieve_tips latin1_db [233] g
          = retrieve_tips latin1_db (str_upper latin1_db [233]) g).
Proof.
  destruct (retrieve_tips_case_insensitive latin1_db [233]) as [Hl [Hu _]].
  split; [apply Hl | apply Hu]; reflexivity.
Defined.

(** ** The turn coordinator *)

Lemma round_robin_S (n : nat) : round_robin (S n) = round_robin n ++ [role_at n].
Proof. unfold round_robin. by rewrite seq_S, fmap_app. Qed.

Lemma round_robin_lookup (n i : nat) (r : role) :
  round_robin n !! i = Some r → r = role_at i.
Proof.
  unfold round_robin. rewrite list_lookup_fmap. intros H.
  destruct (seq 0 n !! i) as [j|] eqn:Hj; [| done].
  apply lookup_seq in Hj as [-> _]. simpl in H. congruence.
Qed.

Lemma even_S_of_even (n : nat) : Nat.even n = true → Nat.even (S n) = false.
Proof. intros H. by rewrite Nat.even_succ, <- Nat.negb_even, H. Qed.

Lemma even_S_of_odd (n : nat) : Nat.even n = false → Nat.even (S n) = true.
Proof. intros H. by rewrite Nat.even_succ, <- Nat.negb_even, H. Qed.

Section CoordinatorProps.

Variable model : role → str → list message → option str.
Variable cfg : group_chat_config.
Variable task : str.

Hypothesis max_turns_even : Nat.even (max_turns cfg) = true.
Hypothesis max_turns_pos : (0 < max_turns cfg)%nat.

Lemma even_lt_even (n : nat) :
  Nat.even n = true → (n < max_turns cfg)%nat → (S n < max_turns cfg)%nat.
Proof.
  intros Hn Hlt. destruct (decide (S n = max_turns cfg)) as [Heq | ?]; [| lia].
  apply even_S_of_even in Hn. congruence.
Qed.

Lemma initial_inv : coordinator_inv cfg initial.
Proof. unfold coordinator_inv. simpl. repeat split; lia. Qed.

Lemma step_inv (s : coordinator) :
  coordinator_inv cfg s → coordinator_inv cfg (step model cfg task s).
Proof.
  unfold coordinator_inv, step.
  destruct s as [ph n tr inv [r|]]; simpl; [done |].
  intros (Hrr & Hmax & Htr & Hlen & Hph).
  destruct ph; simpl; [| | | done].
  - subst n. rewrite Hph in *. repeat split; done.
  - destruct Hph as [Hev Hlt]. unfold invoke. simpl.
    destruct (model RetrieverAgent task tr) as [c|]; simpl;
      rewrite ?length_app, ?fmap_app; simpl;
      replace (length inv + 1)%nat with (S (length inv)) by lia;
      rewrite round_robin_S, <- Hrr, Hlen; unfold role_at; rewrite Hev.
    + split; [done |]. split; [lia |]. split; [congruence |]. split; [lia |].
      split; [| by apply even_lt_even]. by apply (even_S_of_even n).
    + split; [done |]. split; [lia | congruence].
  - destruct Hph as [Hev Hlt]. unfold invoke. simpl.
    destruct (model ResponderAgent task tr) as [c|]; simpl;
      rewrite ?length_app, ?fmap_app; simpl;
      replace (length inv + 1)%nat with (S (length inv)) by lia;
      rewrite round_robin_S, <- Hrr, Hlen; unfold role_at; rewrite Hev.
    + split; [done |]. split; [lia |]. split; [congruence |]. split; [lia |].
      destruct (Nat.leb_spec (max_turns cfg) (S n)); simpl; [done |].
      destruct (fires cfg _); [done |]. split; [| done].
      by apply (even_S_of_odd n).
    + split; [done |]. split; [lia | congruence].
Qed.

Lemma run_steps_inv (n : nat) (s : coordinator) :
  coordinator_inv cfg s → coordinator_inv cfg (run_steps model cfg task n s).
Proof. revert s. induction n as [|n IH]; intros s Hs; [done |]. by apply IH, step_inv. Qed.

Lemma step_terminal (s : coordinator) :
  terminal s → step model cfg task s = s.
Proof.
  unfold terminal, step. intros [Hd | Hf].
  - rewrite Hd. by destruct (failure s).
  - by destruct (failure s).
Qed.

Lemma run_steps_terminal (n : nat) (s : coordinator) :
  terminal s → run_steps model cfg task n s = s.
Proof.
  intros Hs. induction n as [|n IH]; [done |]. simpl. by rewrite step_terminal.
Qed.

Lemma run_steps_add (n m : nat) (s : coordinator) :
  run_steps model cfg task (n + m) s
  = run_steps model cfg task m (run_steps model cfg task n s).
Proof. revert s. induction n as [|n IH]; intros s; [done |]. simpl. apply IH. Qed.

End CoordinatorProps.

Ltac coord_simpl :=
  cbn [failure phase_of transcript turn_count invocations max_turns
       group_chat Nat.leb orb fires termination_condition app].

(** With the notebook's configuration a run is over after five
    transitions, whatever the model answers: one to start and one per
    turn. *)
Lemma group_chat_ends (model : role → str → list message → option str)
    (task : str) :
  terminal (run_steps model group_chat task 5 initial).
Proof.
  assert (Hfail : ∀ k ph n tr inv r,
    terminal (run_steps model group_chat task k (Coordinator ph n tr inv (Some r)))).
  { intros. rewrite run_steps_terminal; by right. }
  change 5%nat with (S (S (S (S (S O))))). unfold initial.
  cbn [run_steps]. unfold step at 5. coord_simpl.
  unfold step at 4. coord_simpl. unfold invoke. coord_simpl.
  destruct (model RetrieverAgent task []) as [c1|];
    [| apply (Hfail 3%nat)].
  unfold step at 3. coord_simpl. unfold invoke. coord_simpl.
  destruct (model ResponderAgent task [Message RetrieverAgent c1]) as [c2|];
    [| apply (Hfail 2%nat)].
  unfold step at 2. coord_simpl. unfold invoke. coord_simpl.
  destruct (model RetrieverAgent task (_ :: _ :: _)) as [c3|];
    [| apply (Hfail 1%nat)].
  unfold step. coord_simpl. unfold invoke. coord_simpl.
  destruct (model ResponderAgent task (_ :: _ :: _ :: _)) as [c4|];
    [by left | by right].
Qed.

(** C8: in every run of the coordinator as the notebook configures it
    (turn limit 4, no termination condition), whatever the model answers
    and however far the run has got, at most 4 role invocations have been
    made, and the invocation number [i] (from zero) is the retriever's for
    even [i] and the responder's for odd [i]; the messages of the
    transcript come from the invoked roles in that order; and after five
    transitions the run is over. *)
Theorem group_chat_round_robin
    (model : role → str → list message → option str) (task : str) (n : nat) :
  let s := run_steps model group_chat task n initial in
  (length (invocations s) ≤ 4)%nat
  ∧ (∀ i r, invocations s !! i = Some r →
            r = if Nat.even i then RetrieverAgent else ResponderAgent)
  ∧ msg_sender <$> transcript s `prefix_of` invocations s
  ∧ ((5 ≤ n)%nat → terminal s).
Proof.
  intros s.
  assert (Hinv : coordinator_inv group_chat s).
  { apply run_steps_inv; [reflexivity | simpl; lia |].
    apply initial_inv; simpl; lia. }
  destruct Hinv as (Hrr & Hmax & Hrest). split; [done |]. split; [| split].
  - intros i r Hi. rewrite Hrr in Hi. by apply round_robin_lookup in Hi.
  - destruct (failure s) as [r|].
    + rewrite Hrest. by apply prefix_app_r.
    + destruct Hrest as [-> _]. done.
  - intros Hn. subst s. replace n with (5 + (n - 5))%nat by lia.
    rewrite run_steps_add, run_steps_terminal; apply group_chat_ends.
Qed.

(** ** The retrieval function on any store *)

Lemma getitem_Some (d : dict) (k : string) (v : str) (g : globals) :
  d !! k = Some v → getitem d k g = (inr v, g).
Proof. intros H. unfold getitem. by rewrite H. Qed.

Lemma getitem_None (d : dict) (k : string) (g : globals) :
  d !! k = None → getitem d k g = (inl (KeyError k), g).
Proof. intros H. unfold getitem. by rewrite H. Qed.

Lemma render_view_nonempty (d : dict) : render (dict_view d) ≠ [].
Proof. apply render_nonempty. Qed.

Section AnyStore.

Variable U : case_db.

Lemma any_word_in_fields (d : dict) (words : list str) (g : globals) :
  is_Some (d !! "content"%string) →
  any_word_in U d words g
  = (inr (existsb (str_contains (str_lower U (tip_content (dict_view d))))
            words), g).
Proof.
  intros [c Hc]. unfold dict_view. simpl. rewrite Hc. simpl.
  induction words as [|w words IH]; [done |].
  cbn [any_word_in existsb]. unfold bind. rewrite (getitem_Some _ _ c) by done.
  destruct (str_contains _ w); [done | apply IH].
Qed.

Lemma fmt_tip_fields (d : dict) (g : globals) :
  has_fields d → fmt_tip d g = (inr (render (dict_view d)), g).
Proof.
  intros [[c Hc] [s Hs]]. unfold fmt_tip, bind, render, dict_view. simpl.
  rewrite (getitem_Some _ _ s), (getitem_Some _ _ c) by done.
  by rewrite Hc, Hs.
Qed.

Lemma for_tip_fields (query : str) (store : list dict) (relevant : list str)
    (g : globals) :
  Forall has_fields store →
  for_tip U (str_lower U query) store relevant g
  = (inr (relevant ++
          (render ∘ dict_view
           <$> filter (λ d, tip_matchesb U query (dict_view d)) store)), g).
Proof.
  intros Hall. revert relevant.
  induction Hall as [|d store Hd Hall IH]; intros relevant.
  - simpl. by rewrite app_nil_r.
  - cbn [for_tip]. unfold bind at 1.
    rewrite any_word_in_fields by apply Hd. rewrite filter_cons.
    fold (tip_matchesb U query (dict_view d)).
    destruct (tip_matchesb U query (dict_view d)) eqn:Hm.
    + rewrite decide_True by done. unfold bind.
      rewrite fmt_tip_fields, IH by done. by rewrite <- app_assoc, fmap_cons.
    + rewrite decide_False by (by apply Is_true_false). apply IH.
Qed.

Lemma fmt_all_fields (store : list dict) (g : globals) :
  Forall has_fields store →
  fmt_all store g = (inr (render ∘ dict_view <$> store), g).
Proof.
  induction 1 as [|d store Hd Hall IH]; [done |].
  cbn [fmt_all]. unfold bind. by rewrite fmt_tip_fields, IH.
Qed.

(** X1: on every store of which each tip has a ["content"] and a
    ["source"], whatever else the tips hold, [retrieve_tips] raises
    nothing, leaves the store as it is, and returns the newline-join of
    the renderings of the matching tips in store order, or of all tips when
    none matches. *)
Theorem retrieve_tips_any_store (query : str) (store : list dict) :
  Forall has_fields store →
  retrieve_tips U query (Globals store)
  = (inr (str_join newline
            (render ∘ dict_view <$> selected_dicts U query store)),
     Globals store).
Proof.
  intros Hall. unfold retrieve_tips, selected_dicts.
  unfold bind at 1. cbn [load_health_tips g_health_tips].
  unfold bind at 1. rewrite for_tip_fields by done. rewrite app_nil_l.
  destruct (filter _ store) as [|d ds] eqn:Hf.
  - cbn [fmap list_fmap]. unfold bind. cbn [load_health_tips g_health_tips].
    by rewrite fmt_all_fields.
  - by rewrite fmap_cons.
Qed.

End AnyStore.

Lemma retrieve_tips_any_store_witness :
  retrieve_tips latin1_db (lit "Stretch")
    (Globals [ {[ "content"%string := lit "Stretch daily.";
                  "source"%string := lit "Coach";
                  "rating"%string := lit "5" ]} ])
  = (inr (lit "Source: Coach => Stretch daily."),
     Globals [ {[ "content"%string := lit "Stretch daily.";
                  "source"%string := lit "Coach";
                  "rating"%string := lit "5" ]} ]).
Proof.
  rewrite (retrieve_tips_any_store latin1_db); [reflexivity |].
  repeat constructor; by eexists.
Defined.

(** X2: on a store of which each tip has both keys, the output of
    [retrieve_tips] is the empty string exactly when the store is empty. *)
Theorem retrieve_tips_empty_output (U : case_db) (query : str)
    (store : list dict) :
  Forall has_fields store →
  ((retrieve_tips U query (Globals store)).1 = inr [] ↔ store = []).
Proof.
  intros Hall. rewrite retrieve_tips_any_store by done. simpl. split.
  - intros Heq. injection Heq as Heq. unfold selected_dicts in Heq.
    destruct store as [|d store]; [done |]. exfalso.
    destruct (filter _ (d :: store)) as [|d' ds];
      rewrite fmap_cons in Heq;
      by apply str_join_nonempty in Heq; [| apply render_view_nonempty].
  - by intros ->.
Qed.

Lemma retrieve_tips_empty_output_witness :
  (retrieve_tips latin1_db (lit "walk") (Globals [])).1 = inr []
  ↔ ([] : list dict) = [].
Proof. apply (retrieve_tips_empty_output latin1_db). constructor. Defined.

(** *** Missing keys *)

Section MissingKeys.

Variable U : case_db.

Lemma for_tip_no_words (ql : str) (tips : list dict) (relevant : list str)
    (g : globals) :
  str_split ql = [] → for_tip U ql tips relevant g = (inr relevant, g).
Proof.
  intros Hw. revert relevant. induction tips as [|d tips IH]; [done |].
  intros relevant. cbn [for_tip]. rewrite Hw. cbn [any_word_in].
  unfold bind, ret. apply IH.
Qed.

Lemma fmt_all_missing (tips : list dict) (g : globals) :
  (∃ d, d ∈ tips ∧ d !! "content"%string = None) →
  ∃ k, (fmt_all tips g).1 = inl (KeyError k)
       ∧ (k = "content"%string ∨ k = "source"%string).
Proof.
  intros [d [Hd Hnone]]. induction tips as [|d0 tips IH]; [by apply elem_of_nil in Hd |].
  cbn [fmt_all]. unfold bind at 1, fmt_tip, bind.
  destruct (d0 !! "source"%string) as [s|] eqn:Hs.
  - rewrite (getitem_Some _ _ s) by done.
    destruct (d0 !! "content"%string) as [c|] eqn:Hc.
    + rewrite (getitem_Some _ _ c) by done. unfold ret.
      apply elem_of_cons in Hd as [-> | Hd]; [congruence |].
      destruct (IH Hd) as [k [Hk Hor]].
      destruct (fmt_all tips g) as [[e|ls] g']; simpl in *; [| done].
      exists k. by rewrite Hk.
    + rewrite getitem_None by done. eauto.
  - rewrite getitem_None by done. eauto.
Qed.

Lemma for_tip_missing (ql : str) (tips : list dict) (relevant : list str)
    (g : globals) :
  str_split ql ≠ [] →
  (∃ d, d ∈ tips ∧ d !! "content"%string = None) →
  ∃ k, (for_tip U ql tips relevant g).1 = inl (KeyError k)
       ∧ (k = "content"%string ∨ k = "source"%string).
Proof.
  intros Hw [d [Hd Hnone]]. revert relevant.
  induction tips as [|d0 tips IH]; intros relevant; [by apply elem_of_nil in Hd |].
  cbn [for_tip]. destruct (str_split ql) as [|w ws] eqn:Hsplit; [done |].
  destruct (d0 !! "content"%string) as [c|] eqn:Hc.
  - assert (Hrest : d ∈ tips) by (apply elem_of_cons in Hd as [-> | ?]; [congruence | done]).
    unfold bind at 1. rewrite any_word_in_fields by (by eexists).
    destruct (existsb _ (w :: ws)); [| by apply IH].
    unfold bind at 1, fmt_tip, bind.
    destruct (d0 !! "source"%string) as [s|] eqn:Hs.
    + rewrite (getitem_Some _ _ s), (getitem_Some _ _ c) by done. unfold ret.
      by apply IH.
    + rewrite getitem_None by done. eauto.
  - cbn [any_word_in]. unfold bind. rewrite getitem_None by done. eauto.
Qed.

(** X3: when some tip of the store has no ["content"], every call of
    [retrieve_tips] raises [KeyError], for the key ["content"] or, when a
    tip without ["source"] is rendered first, for ["source"]; the empty
    query is no exception, since the fallback reads every tip. *)
Theorem retrieve_tips_missing_content (query : str) (store : list dict) :
  (∃ d, d ∈ store ∧ d !! "content"%string = None) →
  ∃ k, (retrieve_tips U query (Globals store)).1 = inl (KeyError k)
       ∧ (k = "content"%string ∨ k = "source"%string).
Proof.
  intros Hbad. unfold retrieve_tips.
  unfold bind at 1. cbn [load_health_tips g_health_tips]. unfold bind at 1.
  destruct (str_split (str_lower U query)) as [|w ws] eqn:Hsplit.
  - rewrite for_tip_no_words by done. unfold bind at 1.
    unfold bind at 1. cbn [load_health_tips g_health_tips].
    destruct (fmt_all_missing store (Globals store) Hbad) as [k [Hk Hor]].
    destruct (fmt_all store (Globals store)) as [[e|ls] g']; simpl in *; [| done].
    injection Hk as ->. eauto.
  - destruct (for_tip_missing (str_lower U query) store [] (Globals store))
      as [k [Hk Hor]]; [by rewrite Hsplit | done |].
    destruct (for_tip U _ store [] (Globals store)) as [[e|ls] g']; simpl in *; [| done].
    injection Hk as ->. eauto.
Qed.

End MissingKeys.

Lemma retrieve_tips_missing_content_witness :
  ∃ k, (retrieve_tips latin1_db []
          (Globals [ {[ "id"%string := lit "tip9";
                        "source"%string := lit "Coach" ]} ])).1
       = inl (KeyError k)
       ∧ (k = "content"%string ∨ k = "source"%string).
Proof.
  apply (retrieve_tips_missing_content latin1_db).
  eexists. split; [left | reflexivity].
Defined.

(** *** What the result depends on *)

Lemma keeps_eta {A} (m : M A) (g : globals) :
  keeps_globals m → m g = ((m g).1, g).
Proof. intros Hm. specialize (Hm g). destruct (m g). simpl in *. by subst. Qed.

(** Two sequences give the same result when their first statements do and
    their continuations do on every value, whatever the globals. *)
Lemma bind_same {A B} (m m' : M A) (k k' : A → M B) (g g' : globals) :
  keeps_globals m → keeps_globals m' →
  (m g).1 = (m' g').1 →
  (∀ a, (k a g).1 = (k' a g').1) →
  (bind m k g).1 = (bind m' k' g').1.
Proof.
  intros Hm Hm' Heq Hk. unfold bind.
  rewrite (keeps_eta m g Hm), (keeps_eta m' g' Hm'), Heq.
  destruct (m' g').1; [done | apply Hk].
Qed.

Lemma getitem_same (d d' : dict) (k : string) (g g' : globals) :
  d !! k = d' !! k → (getitem d k g).1 = (getitem d' k g').1.
Proof. intros H. unfold getitem. rewrite H. by destruct (d' !! k). Qed.

Section Dependence.

Variable U : case_db.

Lemma any_word_in_same (d d' : dict) (words : list str) (g g' : globals) :
  d !! "content"%string = d' !! "content"%string →
  (any_word_in U d words g).1 = (any_word_in U d' words g').1.
Proof.
  intros Hc. induction words as [|w words IH]; [done |].
  cbn [any_word_in].
  apply bind_same; [apply keeps_getitem | apply keeps_getitem | |].
  - by apply getitem_same.
  - intros c. by destruct (str_contains _ w).
Qed.

Lemma fmt_tip_same (d d' : dict) (g g' : globals) :
  same_fields d d' → (fmt_tip d g).1 = (fmt_tip d' g').1.
Proof.
  intros [Hc Hs]. unfold fmt_tip.
  apply bind_same; [apply keeps_getitem | apply keeps_getitem | |].
  - by apply getitem_same.
  - intros s. apply bind_same; [apply keeps_getitem | apply keeps_getitem | |].
    + by apply getitem_same.
    + done.
Qed.

Lemma for_tip_same (ql : str) (tips tips' : list dict) (relevant : list str)
    (g g' : globals) :
  Forall2 same_fields tips tips' →
  (for_tip U ql tips relevant g).1 = (for_tip U ql tips' relevant g').1.
Proof.
  intros Hall. revert relevant.
  induction Hall as [|d d' tips tips' Hd Hall IH]; intros relevant; [done |].
  cbn [for_tip].
  apply bind_same; [apply keeps_any_word_in | apply keeps_any_word_in | |].
  - apply any_word_in_same, Hd.
  - intros [|]; [| apply IH].
    apply bind_same; [apply keeps_fmt_tip | apply keeps_fmt_tip | |].
    + by apply fmt_tip_same.
    + intros line. apply IH.
Qed.

Lemma fmt_all_same (tips tips' : list dict) (g g' : globals) :
  Forall2 same_fields tips tips' →
  (fmt_all tips g).1 = (fmt_all tips' g').1.
Proof.
  induction 1 as [|d d' tips tips' Hd Hall IH]; [done |].
  cbn [fmt_all].
  apply bind_same; [apply keeps_fmt_tip | apply keeps_fmt_tip | |].
  - by apply fmt_tip_same.
  - intros line.
    apply bind_same; [apply keeps_fmt_all | apply keeps_fmt_all | done |].
    done.
Qed.

(** X4: the result of [retrieve_tips], a string or a [KeyError], depends
    on the store through the ["content"] and ["source"] of its tips only:
    two stores whose tips agree on these two keys, one by one, give the
    same result; the ["id"] of a tip and any other key are never read. *)
Theorem retrieve_tips_reads_two_keys (query : str) (store store' : list dict) :
  Forall2 same_fields store store' →
  (retrieve_tips U query (Globals store)).1
  = (retrieve_tips U query (Globals store')).1.
Proof.
  intros Hall. unfold retrieve_tips.
  unfold bind at 1. cbn [load_health_tips g_health_tips]. symmetry.
  unfold bind at 1. cbn [load_health_tips g_health_tips]. symmetry.
  assert (Hfall : keeps_globals (tips <~ load_health_tips ;; fmt_all tips)).
  { apply keeps_bind; [apply keeps_load |]. intros ?. apply keeps_fmt_all. }
  apply bind_same; [apply keeps_for_tip | apply keeps_for_tip | |].
  - by apply for_tip_same.
  - intros relevant.
    apply bind_same; [destruct relevant; [apply Hfall | apply keeps_ret]
                     | destruct relevant; [apply Hfall | apply keeps_ret]
                     | | done].
    destruct relevant as [|line relevant]; [| done].
    unfold bind. cbn [load_health_tips g_health_tips]. by apply fmt_all_same.
Qed.

End Dependence.

Lemma retrieve_tips_reads_two_keys_witness :
  (retrieve_tips latin1_db (lit "hiit") (Globals health_tips)).1
  = (retrieve_tips latin1_db (lit "hiit")
       (Globals (delete "id"%string <$> health_tips))).1.
Proof.
  apply (retrieve_tips_reads_two_keys latin1_db).
  unfold health_tips. repeat constructor.
Defined.

(** *** The words of the query *)

Lemma existsb_incl {A} (f : A → bool) (l l' : list A) :
  (∀ x, x ∈ l → x ∈ l') → existsb f l = true → existsb f l' = true.
Proof.
  intros Hsub. rewrite !existsb_exists. intros [x [Hx Hf]]. exists x.
  split; [| done]. apply list_elem_of_In, Hsub. by apply list_elem_of_In.
Qed.

Lemma existsb_same {A} (f : A → bool) (l l' : list A) :
  (∀ x, x ∈ l ↔ x ∈ l') → existsb f l = existsb f l'.
Proof.
  intros Hsame. apply eq_true_iff_eq.
  split; apply existsb_incl; intros x; apply Hsame.
Qed.

(** X5: on a store of which each tip has both keys, the result depends on
    the query through the set of the words of its lower case only: two
    queries with the same words, in whatever order and however often
    repeated or spaced, give the same result. *)
Theorem retrieve_tips_word_set (U : case_db) (query query' : str)
    (store : list dict) :
  Forall has_fields store →
  (∀ word, word ∈ str_split (str_lower U query)
           ↔ word ∈ str_split (str_lower U query')) →
  retrieve_tips U query (Globals store)
  = retrieve_tips U query' (Globals store).
Proof.
  intros Hall Hwords. rewrite !retrieve_tips_any_store by done.
  unfold selected_dicts, tip_matchesb.
  rewrite (list_filter_iff _
             (λ d, existsb
                     (str_contains (str_lower U (tip_content (dict_view d))))
                     (str_split (str_lower U query')))); [done |].
  intros d. by rewrite (existsb_same _ _ _ Hwords).
Qed.

Lemma retrieve_tips_word_set_witness :
  retrieve_tips latin1_db (lit "HIIT walk") (Globals health_tips)
  = retrieve_tips latin1_db (lit "  walk   hiit Walk ") (Globals health_tips).
Proof.
  apply (retrieve_tips_word_set latin1_db).
  - unfold health_tips. repeat constructor; by eexists.
  - intros word.
    change (str_split (str_lower latin1_db (lit "HIIT walk")))
      with [lit "hiit"; lit "walk"].
    change (str_split (str_lower latin1_db (lit "  walk   hiit Walk ")))
      with [lit "walk"; lit "hiit"; lit "walk"].
    rewrite !elem_of_cons, !elem_of_nil. tauto.
Defined.

(** X6: on the notebook's store, when the query [query] matches at least
    one tip and every word of its lower case is a word of the lower case
    of [query'], every tip shown for [query] is shown for [query']: adding
    words to a query that matches can only add tips. *)
Theorem retrieve_tips_more_words (U : case_db) (query query' : str) :
  (∃ t, t ∈ tip_store ∧ tip_matches U query t) →
  (∀ word, word ∈ str_split (str_lower U query)
           → word ∈ str_split (str_lower U query')) →
  ∃ out out',
    retrieve_tips U query module_globals = (inr out, module_globals)
    ∧ retrieve_tips U query' module_globals = (inr out', module_globals)
    ∧ ∀ t, t ∈ tip_store → shown_in out t → shown_in out' t.
Proof.
  intros [t0 Ht0] Hwords.
  exists (spec_retrieve_tips U query), (spec_retrieve_tips U query').
  split; [apply retrieve_tips_run |]. split; [apply retrieve_tips_run |].
  intros t Ht. rewrite !shown_in_spec_retrieve_tips by done.
  assert (Hmono : ∀ t, t ∈ relevant_tips U query → t ∈ relevant_tips U query').
  { intros t1. rewrite !elem_of_relevant_tips.
    intros [? [w [Hw Hs]]]. split; [done |]. exists w. auto. }
  apply elem_of_relevant_tips in Ht0. unfold selected_tips.
  destruct (relevant_tips U query) as [|t1 ts] eqn:Hrel;
    [by apply elem_of_nil in Ht0 |].
  intros Hin. apply Hmono in Hin.
  destruct (relevant_tips U query') as [|t2 ts']; [by apply elem_of_nil in Hin | done].
Qed.

Lemma retrieve_tips_more_words_witness :
  ∃ out out',
    retrieve_tips latin1_db (lit "walk") module_globals
    = (inr out, module_globals)
    ∧ retrieve_tips latin1_db (lit "brisk walk") module_globals
      = (inr out', module_globals)
    ∧ ∀ t, t ∈ tip_store → shown_in out t → shown_in out' t.
Proof.
  apply (retrieve_tips_more_words latin1_db).
  - exists tip2. split; [compute_done |].
    apply tip_matchesb_spec. vm_compute. reflexivity.
  - intros word.
    change (str_split (str_lower latin1_db (lit "walk"))) with [lit "walk"].
    change (str_split (str_lower latin1_db (lit "brisk walk")))
      with [lit "brisk"; lit "walk"].
    rewrite !elem_of_cons, !elem_of_nil. tauto.
Defined.

(** ** [find_cred_json] *)






Lemma ancestor_anchor (k : nat) (p : path) :
  path_anchor (ancestor k p) = path_anchor p.
Proof. induction k as [|k IH]; [done |]. simpl. apply IH. Qed.

Section FindCredProps.

Variable fs_exists : path → bool.
Variable path_str : path → str.






End FindCredProps.






Example find_cred_json_takes_nearest :
  find_cred_json
    (λ p, bool_decide (p = Path (lit "/") [lit "home"; lit "cred.json"])
          || bool_decide (p = Path (lit "/") [lit "home"; lit "work"; lit "cred.json"]))
    (λ p, path_anchor p ++ str_join (lit "/") (path_parts p))
    (Path (lit "/") [lit "home"; lit "work"; lit "nb"])
  = Some (lit "/home/work/cred.json").
Proof. vm_compute. reflexivity. Qed.

(** ** [run_query] *)

Lemma last_cons_or {A} (x : A) (l : list A) (d : option A) :
  match last (x :: l) with Some y => Some y | None => d end
  = match last l with Some y => Some y | None => Some x end.
Proof.
  destruct l as [|y l]; [done |]. rewrite last_cons_cons.
  destruct (last (y :: l)) eqn:E; [done | by apply last_None in E].
Qed.

Section RunQueryProps.

Variable value : Type.
Variable py_str : value → str.
Variable truthy : gmap string value → bool.

Lemma fmt_message_sourced (message : gmap string value) :
  is_Some (message !! "content"%string) →
  is_Some (message !! "source"%string) →
  ∃ line, fmt_message py_str message = inr line.
Proof.
  intros [c Hc] [s Hs]. unfold fmt_message, getattr. rewrite Hs, Hc. eauto.
Qed.

Lemma fmt_message_no_source (message : gmap string value) :
  message !! "source"%string = None →
  fmt_message py_str message = inl (AttributeError "source").
Proof. intros Hs. unfold fmt_message, getattr. by rewrite Hs. Qed.

(** On a stream whose items with a content have a source, the loop prints
    the message lines and ends with the last item in [final_result]. *)
Lemma stream_loop_sourced (stream : list (gmap string value))
    (stdout : list str) (final_result : option (gmap string value)) :
  sourced stream →
  stream_loop py_str stream stdout final_result
  = (stdout ++ message_lines py_str stream,
     inr (match last stream with
          | Some message => Some message
          | None => final_result
          end)).
Proof.
  intros Hall. revert stdout final_result.
  induction Hall as [|m stream Hm Hall IH]; intros stdout final_result.
  - simpl. by rewrite app_nil_r.
  - cbn [stream_loop]. unfold message_lines. cbn [omap list_omap].
    fold (message_lines py_str stream).
    assert (Hlast : match last (m :: stream) with
                    | Some message => Some message
                    | None => final_result
                    end
                    = match last stream with
                      | Some message => Some message
                      | None => Some m
                      end) by apply last_cons_or.
    rewrite Hlast. destruct (decide (is_Some (m !! "content"%string))) as [Hc|Hc].
    + destruct (fmt_message_sourced m Hc (Hm Hc)) as [line Hline].
      rewrite Hline, IH. simpl. by rewrite <- app_assoc.
    + by rewrite IH.
Qed.

(** X11: on a stream whose items with a content have a source,
    [run_query] ends without an exception whenever the last item is false,
    or has a content, or the stream is empty.  It prints one line per item
    that has a content, in stream order, and then the final response: the
    content of the last item of the stream, whichever item that is, or
    ["No response"] when the stream is empty or its last item is false. *)
Theorem run_query_prints (stream : list (gmap string value)) :
  sourced stream →
  match last stream with
  | None =>
      run_query py_str truthy stream
      = ([final_response ++ lit " " ++ lit "No response"], None)
  | Some message =>
      if truthy message
      then ∀ content, message !! "content"%string = Some content →
             run_query py_str truthy stream
             = (message_lines py_str stream
                ++ [final_response ++ lit " " ++ py_str content], None)
      else run_query py_str truthy stream
           = (message_lines py_str stream
              ++ [final_response ++ lit " " ++ lit "No response"], None)
  end.
Proof.
  intros Hall. unfold run_query. rewrite stream_loop_sourced by done.
  rewrite app_nil_l. destruct (last stream) as [m|] eqn:Hlast.
  - unfold final_text. destruct (truthy m); [| done].
    intros c Hc. unfold getattr. by rewrite Hc.
  - apply last_None in Hlast as ->. done.
Qed.

(** X12: on such a stream, when the last item is true and has no content,
    as an end-of-run result object has none, [run_query] prints the message
    lines and then raises [AttributeError] for ["content"] instead of
    printing a final response: the loop guards the attribute with
    [hasattr], the last statement does not. *)
Theorem run_query_last_without_content (stream : list (gmap string value))
    (message : gmap string value) :
  sourced stream →
  last stream = Some message →
  truthy message = true →
  message !! "content"%string = None →
  run_query py_str truthy stream
  = (message_lines py_str stream, Some (AttributeError "content")).
Proof.
  intros Hall Hlast Ht Hc. unfold run_query.
  rewrite stream_loop_sourced by done. rewrite Hlast, app_nil_l.
  unfold final_text, getattr. by rewrite Ht, Hc.
Qed.

(** X13: an item that has a content and no source stops [run_query]: the
    lines of the items before it are printed, [AttributeError] is raised
    for ["source"], and neither the items after it nor a final response
    are printed. *)
Theorem run_query_missing_source (before after : list (gmap string value))
    (message : gmap string value) :
  sourced before →
  is_Some (message !! "content"%string) →
  message !! "source"%string = None →
  run_query py_str truthy (before ++ message :: after)
  = (message_lines py_str before, Some (AttributeError "source")).
Proof.
  intros Hall Hc Hs. unfold run_query.
  assert (Hloop : ∀ stdout final_result,
    stream_loop py_str (before ++ message :: after) stdout final_result
    = (stdout ++ message_lines py_str before, inl (AttributeError "source"))).
  { induction Hall as [|m stream Hm Hall IH]; intros stdout final_result.
    - simpl. rewrite decide_True by done.
      rewrite fmt_message_no_source by done. by rewrite app_nil_r.
    - rewrite <- app_comm_cons. cbn [stream_loop].
      unfold message_lines. cbn [omap list_omap].
      fold (message_lines py_str stream).
      destruct (decide (is_Some (m !! "content"%string))) as [Hmc|Hmc].
      + destruct (fmt_message_sourced m Hmc (Hm Hmc)) as [line Hline].
        rewrite Hline, IH. simpl. by rewrite <- app_assoc.
      + by rewrite IH. }
  by rewrite Hloop.
Qed.

End RunQueryProps.

Lemma run_query_prints_witness :
  run_query (value := str) id (λ _, true)
    [ {[ "source"%string := lit "RetrieverAgent";
         "content"%string := lit "tips" ]};
      {[ "source"%string := lit "ResponderAgent";
         "content"%string := lit "Walk." ]} ]
  = ([ lit "RetrieverAgent: tips"; lit "ResponderAgent: Walk.";
       final_response ++ lit " Walk." ], None).
Proof.
  assert (Hs : sourced (value := str)
    [ {[ "source"%string := lit "RetrieverAgent";
         "content"%string := lit "tips" ]};
      {[ "source"%string := lit "ResponderAgent";
         "content"%string := lit "Walk." ]} ])
    by (repeat constructor; intros _; by eexists).
  pose proof (run_query_prints str id (λ _, true) _ Hs) as W.
  cbn [last] in W. rewrite (W (lit "Walk.")) by reflexivity. reflexivity.
Defined.

Lemma run_query_last_without_content_witness :
  run_query (value := str) id (λ _, true)
    [ {[ "source"%string := lit "ResponderAgent";
         "content"%string := lit "Walk." ]};
      {[ "stop_reason"%string := lit "Maximum number of turns 4 reached." ]} ]
  = ([ lit "ResponderAgent: Walk." ], Some (AttributeError "content")).
Proof.
  rewrite (run_query_last_without_content str id (λ _, true) _
             {[ "stop_reason"%string
                := lit "Maximum number of turns 4 reached." ]}).
  - reflexivity.
  - repeat constructor; [intros _; by eexists | by intros [? ?]].
  - reflexivity.
  - reflexivity.
  - reflexivity.
Defined.

Lemma run_query_missing_source_witness :
  run_query (value := str) id (λ _, true)
    ([ {[ "source"%string := lit "RetrieverAgent";
          "content"%string := lit "tips" ]} ]
     ++ {[ "content"%string := lit "orphan" ]}
     :: [ {[ "source"%string := lit "ResponderAgent";
            "content"%string := lit "Walk." ]} ])
  = ([ lit "RetrieverAgent: tips" ], Some (AttributeError "source")).
Proof.
  rewrite run_query_missing_source.
  - reflexivity.
  - repeat constructor. intros _. by eexists.
  - by eexists.
  - reflexivity.
Defined.

(** ** Words and blank queries *)

Lemma elem_of_rev {A} (x : A) (l : list A) : x ∈ rev l → x ∈ l.
Proof. rewrite !list_elem_of_In. apply in_rev. Qed.

Lemma split_from_words (cur s : str) (w : str) :
  (∀ c, c ∈ cur → is_space c = false) →
  w ∈ split_from cur s → w ≠ [] ∧ ∀ c, c ∈ w → is_space c = false.
Proof.
  revert cur. induction s as [|c s IH]; intros cur Hcur Hw.
  - simpl in Hw. destruct cur as [|a cur]; [by apply elem_of_nil in Hw |].
    apply list_elem_of_singleton in Hw as ->. split.
    + intros Hnil. apply (f_equal length) in Hnil.
      rewrite length_rev in Hnil. done.
    + intros c Hc. by apply Hcur, elem_of_rev.
  - cbn [split_from] in Hw. destruct (is_space c) eqn:Hc.
    + destruct cur as [|a cur].
      * by apply (IH []).
      * apply elem_of_cons in Hw as [-> | Hw].
        -- split.
           ++ intros Hnil. apply (f_equal length) in Hnil.
              rewrite length_rev in Hnil. done.
           ++ intros c' Hc'. by apply Hcur, elem_of_rev.
        -- apply (IH []); [| done]. intros c' Hc'. by apply elem_of_nil in Hc'.
    + apply (IH (c :: cur)); [| done].
      intros c' Hc'. apply elem_of_cons in Hc' as [-> | Hc']; auto.
Qed.

(** X14: the words that [retrieve_tips] looks for are never empty and hold
    no whitespace, however the query is spaced; so the substring test is
    never the test for the empty string, which every content passes. *)
Theorem query_words_nonempty (U : case_db) (query word : str) :
  word ∈ str_split (str_lower U query) →
  word ≠ [] ∧ ∀ c, c ∈ word → is_space c = false.
Proof.
  apply split_from_words. intros c Hc. by apply elem_of_nil in Hc.
Qed.

Lemma query_words_nonempty_witness :
  lit "hiit" ≠ [] ∧ ∀ c, c ∈ lit "hiit" → is_space c = false.
Proof.
  apply (query_words_nonempty latin1_db (lit "  HIIT   workout ")).
  change (str_split (str_lower latin1_db (lit "  HIIT   workout ")))
    with [lit "hiit"; lit "workout"]. left.
Defined.

Lemma split_from_blank (s : str) :
  forallb is_space s = true → split_from [] s = [].
Proof.
  induction s as [|c s IH]; [done |]. simpl.
  intros [Hc Hs]%andb_true_iff. rewrite Hc. by apply IH.
Qed.

Lemma ascii_lower_space (s : str) :
  forallb (λ c, is_ascii c && is_space c) s = true →
  forallb is_ascii s = true ∧ forallb is_space s = true
  ∧ ascii_lower <$> s = s.
Proof.
  induction s as [|c s IH]; [done |]. cbn [forallb].
  intros [[Ha Hc]%andb_true_iff Hs]%andb_true_iff.
  destruct (IH Hs) as (Ha' & Hs' & Hl).
  rewrite Ha, Hc, Ha', Hs', fmap_cons, Hl.
  repeat split. f_equal. unfold ascii_lower.
  destruct ((65 <=? c) && (c <=? 90)) eqn:E; [| done].
  apply andb_true_iff in E as [E1 E2]. apply N.leb_le in E1, E2.
  unfold is_ascii in Ha. apply N.ltb_lt in Ha. exfalso.
  unfold is_space in Hc.
  repeat (apply orb_true_iff in Hc as [Hc | Hc]);
    repeat (apply andb_true_iff in Hc as [? Hc]);
    repeat match goal with
           | H : (_ <=? _) = true |- _ => apply N.leb_le in H
           | H : (_ =? _) = true |- _ => apply N.eqb_eq in H
           end; lia.
Qed.

Lemma filter_no_words (U : case_db) (query : str) (store : list dict) :
  str_split (str_lower U query) = [] →
  filter (λ d, tip_matchesb U query (dict_view d)) store = [].
Proof.
  intros Hw. induction store as [|d store IH]; [done |].
  rewrite filter_cons_False; [apply IH |].
  unfold tip_matchesb. rewrite Hw. simpl. tauto.
Qed.

(** X15: on a store of which each tip has both keys, a query made of ASCII
    whitespace only, the empty query included, returns the renderings of
    all tips of the store. *)
Theorem retrieve_tips_blank_query (U : case_db) (query : str)
    (store : list dict) :
  Forall has_fields store →
  forallb (λ c, is_ascii c && is_space c) query = true →
  retrieve_tips U query (Globals store)
  = (inr (str_join newline (render ∘ dict_view <$> store)), Globals store).
Proof.
  intros Hall Hq. rewrite retrieve_tips_any_store by done.
  destruct (ascii_lower_space query Hq) as (Ha & Hs & Hl).
  unfold selected_dicts. rewrite filter_no_words; [done |].
  unfold str_lower. rewrite Ha, Hl. by apply split_from_blank.
Qed.

Lemma retrieve_tips_blank_query_witness :
  retrieve_tips latin1_db [32; 9; 10; 32] (Globals health_tips)
  = (inr (str_join newline (render ∘ dict_view <$> health_tips)),
     Globals health_tips).
Proof.
  apply (retrieve_tips_blank_query latin1_db).
  - unfold health_tips. repeat constructor; by eexists.
  - reflexivity.
Defined.
